(** * Theory helpers of the AI Music Studio API (src/main.py)

    A shallow embedding of [build_scale], [generate_chords] and
    [generate_melody], together with the Python built-ins they call.

    Strings are [string]s of code points below 256 (the Latin-1 range of
    Python's [str]); integers are [Z]; the three durations 0.5, 1.0 and 2.0
    are exact rationals.  Python exceptions are the [Raise] branch of
    [result]; the process-wide generator of the [random] module is threaded
    explicitly through [generate_melody]. *)

From Stdlib Require Import List String Ascii Bool ZArith NArith QArith Lia.
From Stdlib Require Import DecimalString.
Import ListNotations.

Local Open Scope string_scope.
Local Open Scope Z_scope.

(** ** Python built-ins *)

Module Py.

Inductive exn : Set := ValueError | IndexError.

Inductive result (A : Type) : Type :=
| Ok (a : A)
| Raise (e : exn).
Arguments Ok {A} a.
Arguments Raise {A} e.

Definition bind {A B} (r : result A) (k : A -> result B) : result B :=
  match r with
  | Ok a => k a
  | Raise e => Raise e
  end.

(** [try: body / except ValueError: handler] *)
Definition except_ValueError {A} (body handler : result A) : result A :=
  match body with
  | Raise ValueError => handler
  | r => r
  end.

(** [c.isspace()] for a code point below 256: TAB..CR, FS..US, space,
    NEL and NBSP. *)
Definition isspace (c : ascii) : bool :=
  let n := N_of_ascii c in
  ((9 <=? n) && (n <=? 13) || (28 <=? n) && (n <=? 32)
   || (n =? 133) || (n =? 160))%N.

(** [c.lower()] for a code point below 256: A..Z and the accented capitals
    U+00C0..U+00DE (the multiplication sign U+00D7 apart) move up by 32. *)
Definition lower_char (c : ascii) : ascii :=
  let n := N_of_ascii c in
  if ((65 <=? n) && (n <=? 90)
      || (192 <=? n) && (n <=? 222) && negb (n =? 215))%N
  then ascii_of_N (n + 32) else c.

Fixpoint lower (s : string) : string :=
  match s with
  | EmptyString => EmptyString
  | String c s' => String (lower_char c) (lower s')
  end.

(** [s.startswith(p)] *)
Definition startswith (s p : string) : bool := String.prefix p s.

(** [s.split()]: the maximal runs of non-whitespace characters, in order.
    [cur] is the run being read. *)
Fixpoint split_from (cur : string) (s : string) : list string :=
  match s with
  | EmptyString =>
      match cur with EmptyString => [] | _ => [cur] end
  | String c s' =>
      if isspace c then
        match cur with
        | EmptyString => split_from EmptyString s'
        | _ => cur :: split_from EmptyString s'
        end
      else split_from (cur ++ String c EmptyString) s'
  end.

Definition split (s : string) : list string := split_from EmptyString s.

(** [a, b = l]: unpacking into two targets. *)
Definition unpack2 {A} (l : list A) : result (A * A) :=
  match l with
  | [a; b] => Ok (a, b)
  | _ => Raise ValueError
  end.

(** [x in l] on a list of strings. *)
Definition contains (l : list string) (x : string) : bool :=
  existsb (String.eqb x) l.

(** [l.index(x)] *)
Fixpoint index (l : list string) (x : string) : result Z :=
  match l with
  | [] => Raise ValueError
  | y :: l' =>
      if String.eqb y x then Ok 0
      else bind (index l' x) (fun i => Ok (i + 1))
  end.

(** [l[i]], a negative index counting from the end. *)
Definition getitem {A} (l : list A) (i : Z) : result A :=
  let n := Z.of_nat (List.length l) in
  let j := if i <? 0 then i + n else i in
  if (j <? 0) || (n <=? j) then Raise IndexError
  else match nth_error l (Z.to_nat j) with
       | Some x => Ok x
       | None => Raise IndexError
       end.

(** [l[:-1]] *)
Definition but_last {A} (l : list A) : list A := removelast l.

(** [range(n)] *)
Definition range (n : Z) : list Z := map Z.of_nat (seq 0 (Z.to_nat n)).

(** [str(n)] for an integer. *)
Definition str (n : Z) : string := NilZero.string_of_int (Z.to_int n).

(** [for x in l: st = body x st], an exception leaving the loop. *)
Fixpoint for_each {A S} (l : list A) (body : A -> S -> result S) (st : S)
  : result S :=
  match l with
  | [] => Ok st
  | x :: l' => bind (body x st) (for_each l' body)
  end.

End Py.

Import Py.

Notation "x <- c ;; k" := (bind c (fun x => k))
  (at level 61, c at next level, right associativity).
Notation "' p <- c ;; k" := (bind c (fun x => let p := x in k))
  (at level 61, p pattern, c at next level, right associativity).

(** ** Scale builder *)

Definition NOTES_SHARP : list string :=
  ["C"; "C#"; "D"; "D#"; "E"; "F"; "F#"; "G"; "G#"; "A"; "A#"; "B"].

Definition major_steps : list Z := [2; 2; 1; 2; 2; 2; 1].
Definition minor_steps : list Z := [2; 1; 2; 2; 1; 2; 2].

(** The [try]/[except] at the head of [build_scale]. *)
Definition split_key (key : string) : result (string * string) :=
  except_ValueError (unpack2 (split key)) (Ok (key, "Major")).

(** The tonic after [if tonic not in NOTES_SHARP: tonic = "C"]. *)
Definition tonic_or_C (tonic : string) : string :=
  if negb (contains NOTES_SHARP tonic) then "C" else tonic.

Definition steps_of (quality : string) : list Z :=
  if startswith (lower quality) "maj" then major_steps else minor_steps.

(** The loop body: [idx = (idx + s) % 12; scale.append(NOTES_SHARP[idx])]. *)
Definition scale_step (s : Z) (st : Z * list string)
  : result (Z * list string) :=
  let '(idx, scale) := st in
  let idx := (idx + s) mod 12 in
  n <- getitem NOTES_SHARP idx ;;
  Ok (idx, (scale ++ [n])%list).

Definition build_scale (key : string) : result (list string) :=
  '(tonic, quality) <- split_key key ;;
  let tonic := tonic_or_C tonic in
  let steps := steps_of quality in
  idx <- index NOTES_SHARP tonic ;;
  '(_, scale) <- for_each (but_last steps) scale_step (idx, [tonic]) ;;
  Ok scale.

(** ** Chord progression generator *)

Record Chords : Type := {
  chords_key : string;
  progression : list string
}.

Definition degrees : list Z := [0; 5; 3; 4].

(** [f"{scale[d]}{'' if d in [0,3,4] else 'm'}"] *)
Definition chord_label (scale : list string) (d : Z) : result string :=
  n <- getitem scale d ;;
  Ok (n ++ (if existsb (Z.eqb d) [0; 3; 4] then "" else "m")).

(** The list comprehension [[f x for x in l]]. *)
Fixpoint comprehension {A B} (f : A -> result B) (l : list A)
  : result (list B) :=
  match l with
  | [] => Ok []
  | x :: l' => y <- f x ;; ys <- comprehension f l' ;; Ok (y :: ys)
  end.

Definition generate_chords (key : string) : result Chords :=
  scale <- build_scale key ;;
  prog <- comprehension (chord_label scale) degrees ;;
  Ok {| chords_key := key; progression := prog |}.

(** ** Melody generator *)

(** The [random] module: a generator state, [random.seed(a)] and the draw
    [_randbelow(n)] behind [random.choice].  The generator itself is not
    part of the repository, so it is an interface; [lawful] is the
    contract of [_randbelow]. *)
Record Random : Type := {
  rng : Type;
  seed : Z -> rng;
  randbelow : Z -> rng -> Z * rng
}.

Definition lawful (R : Random) : Prop :=
  forall n g, 0 < n -> 0 <= fst (randbelow R n g) < n.

Record Note : Type := {
  note : string;
  duration : Q
}.

Record Melody : Type := {
  melody_key : string;
  melody_bpm : Z;
  melody : list Note
}.

Definition durations : list Q := [1 # 2; 1; 1; 2]%Q.
Definition octaves : list Z := [4; 5].

Section WithRandom.

Variable R : Random.

(** A computation that reads and updates the process-wide generator and
    may raise. *)
Definition M (A : Type) : Type := rng R -> result (A * rng R).

Definition ret {A} (a : A) : M A := fun g => Ok (a, g).

Definition bindM {A B} (c : M A) (k : A -> M B) : M B :=
  fun g => match c g with
           | Ok (a, g') => k a g'
           | Raise e => Raise e
           end.

Definition lift {A} (r : result A) : M A :=
  fun g => match r with
           | Ok a => Ok (a, g)
           | Raise e => Raise e
           end.


(** [random.choice(seq)] *)
Definition choice {A} (seq : list A) : M A :=
  fun g =>
    if (List.length seq =? 0)%nat then Raise IndexError
    else let '(i, g') := randbelow R (Z.of_nat (List.length seq)) g in
         match getitem seq i with
         | Ok x => Ok (x, g')
         | Raise e => Raise e
         end.

Fixpoint for_eachM {A S} (l : list A) (body : A -> S -> M S) (st : S)
  : M S :=
  match l with
  | [] => ret st
  | x :: l' => bindM (body x st) (for_eachM l' body)
  end.

(** One turn of the loop of [generate_melody]. *)
Definition melody_step (scale : list string) (_ : Z) (acc : list Note)
  : M (list Note) :=
  bindM (choice scale) (fun n =>
  bindM (choice durations) (fun dur =>
  bindM (choice octaves) (fun o =>
  ret (acc ++ [{| note := n ++ str o; duration := dur |}])%list))).

Definition generate_melody (key : string) (bars bpm : Z) : M Melody :=
  bindM (lift (build_scale key)) (fun scale =>
  bindM (for_eachM (range (bars * 4)) (melody_step scale) []) (fun mel =>
  ret {| melody_key := key; melody_bpm := bpm; melody := mel |})).



End WithRandom.

Arguments ret {R A} a.
Arguments bindM {R A B} c k.
Arguments lift {R A} r.
Arguments choice {R A} seq.
Arguments for_eachM {R A S} l body st.

(** A small linear congruential generator, an instance of [Random] on
    which the melody generator can be run. *)
Definition lcg : Random := {|
  rng := Z;
  seed := fun a => a mod 2147483648;
  randbelow := fun n g =>
    ((g / 65536) mod n, (1103515245 * g + 12345) mod 2147483648)
|}.

(** ** The scale in the words of the specification *)

(** The pitch name at a position of the circular 12-note space. *)
Definition pitch (i : Z) : string :=
  nth (Z.to_nat (i mod 12)) NOTES_SHARP "C".

(** Position of a pitch name in [NOTES_SHARP]; 0 for any other string. *)
Fixpoint position (l : list string) (x : string) : Z :=
  match l with
  | [] => 0
  | y :: l' => if String.eqb y x then 0 else 1 + position l' x
  end.

(** Walking a list of steps from position [i], naming each position
    reached. *)
Fixpoint walk (i : Z) (steps : list Z) : list string :=
  match steps with
  | [] => []
  | s :: steps' => pitch (i + s) :: walk ((i + s) mod 12) steps'
  end.

Definition is_maj (quality : string) : bool :=
  String.prefix "maj" (lower quality).

Definition pattern (quality : string) : list Z :=
  if is_maj quality then [2; 2; 1; 2; 2; 2; 1] else [2; 1; 2; 2; 1; 2; 2].

(** The tonic, then the positions reached by the first six steps of the
    pattern. *)
Definition scale_spec (tonic quality : string) : list string :=
  tonic :: walk (position NOTES_SHARP tonic) (firstn 6 (pattern quality)).

(** The label of a degree in the words of the specification. *)
Definition label_spec (scale : list string) (d : Z) : string :=
  let n := nth (Z.to_nat d) scale "" in
  if (d =? 0) || (d =? 3) || (d =? 4) then n else n ++ "m".

(** A melody entry in the words of the specification: a name of the scale
    followed by the octave 4 or 5, and one of the three durations. *)
Definition entry_spec (scale : list string) (e : Note) : Prop :=
  (exists n o, In n scale /\ (o = "4" \/ o = "5") /\ note e = n ++ o) /\
  (duration e = (1 # 2)%Q \/ duration e = 1%Q \/ duration e = 2%Q).

(** A token: a non-empty string without whitespace. *)
Fixpoint no_space (s : string) : bool :=
  match s with
  | EmptyString => true
  | String c s' => negb (isspace c) && no_space s'
  end.

Definition token (s : string) : Prop := s <> "" /\ no_space s = true.

(** ** Transposition and rotation of scales *)

(** The pitch name [k] semitones above a name of [NOTES_SHARP]. *)
Definition transpose (k : Z) (n : string) : string :=
  pitch (position NOTES_SHARP n + k).

(** The list started at its element of index [n]. *)
Definition rotate {A} (n : nat) (l : list A) : list A :=
  (skipn n l ++ firstn n l)%list.

(** ** The analysis helper *)

(** [random.randrange(start, stop)] with the default step. *)
Definition randrange (R : Random) (start stop : Z) : M R Z :=
  fun g =>
    let width := stop - start in
    if 0 <? width then
      let '(i, g') := randbelow R width g in Ok (start + i, g')
    else Raise ValueError.

(** [random.randint(a, b)] *)
Definition randint (R : Random) (a b : Z) : M R Z := randrange R a (b + 1).

Definition analysis_keys : list string :=
  ["C Major"; "A Minor"; "G Minor"; "D Major"; "F# Minor"].

Definition analysis_styles : list string :=
  ["LoFi"; "Trap"; "EDM"; "Rock"; "Bollywood"; "Chillhop"; "Romantic"].

Definition _random_bpm_key_style (R : Random) : M R (Z * string * string) :=
  bindM (randint R 70 140) (fun bpms =>
  bindM (choice analysis_keys) (fun keys =>
  bindM (choice analysis_styles) (fun style =>
  ret (bpms, keys, style)))).

(** ** The tone of a generation request *)

(** [GenerationRequest.bpm]: [Field(default=90, ge=40, le=200)]. *)
Definition bpm_accepted (bpm : Z) : bool := (40 <=? bpm) && (bpm <=? 200).

(** [110.0 + (req.bpm - 40) * 1.5 if req.bpm else 220.0] in
    [generate_music].  The values are multiples of one half, which the
    floating-point operations give exactly, so they are rationals here. *)
Definition music_freq (bpm : Z) : Q :=
  if negb (bpm =? 0) then (110 + inject_Z (bpm - 40) * (3 # 2))%Q
  else 220%Q.

(** ** Paths *)

(** [s.endswith(p)] *)
Definition endswith (s p : string) : bool :=
  let n := String.length s in
  let m := String.length p in
  (m <=? n)%nat && String.eqb (substring (n - m) m s) p.

(** [s.rfind(c)] for a single character: the last index of [c], or -1. *)
Fixpoint rfind (s : string) (c : ascii) : Z :=
  match s with
  | EmptyString => -1
  | String x s' =>
      let r := rfind s' c in
      if 0 <=? r then r + 1 else if Ascii.eqb x c then 0 else -1
  end.

Fixpoint take (n : nat) (s : string) : string :=
  match n, s with
  | S n', String c s' => String c (take n' s')
  | _, _ => EmptyString
  end.

Fixpoint drop (n : nat) (s : string) : string :=
  match n, s with
  | S n', String _ s' => drop n' s'
  | _, _ => s
  end.

(** A slice bound brought into [0, len(s)], a negative one counting from
    the end. *)
Definition bound (s : string) (i : Z) : nat :=
  let n := Z.of_nat (String.length s) in
  Z.to_nat (if i <? 0 then Z.max 0 (i + n) else Z.min i n).

(** [s[lo:hi]], [s[:hi]] and [s[lo:]] *)
Definition slice (s : string) (lo hi : Z) : string :=
  take (bound s hi - bound s lo) (drop (bound s lo) s).
Definition slice_to (s : string) (hi : Z) : string := take (bound s hi) s.
Definition slice_from (s : string) (lo : Z) : string := drop (bound s lo) s.

(** The loop of [genericpath._splitext] that skips the leading dots of the
    last component; [n] is the number of indices left before [dotIndex]. *)
Fixpoint skip_dots (p : string) (dotIndex : Z) (n : nat) (filenameIndex : Z)
  : option (string * string) :=
  match n with
  | O => None
  | S n' =>
      if negb (String.eqb (slice p filenameIndex (filenameIndex + 1)) ".")
      then Some (slice_to p dotIndex, slice_from p dotIndex)
      else skip_dots p dotIndex n' (filenameIndex + 1)
  end.

(** [os.path.splitext(p)] *)
Definition splitext (p : string) : string * string :=
  let sepIndex := rfind p "/" in
  let dotIndex := rfind p "." in
  if sepIndex <? dotIndex then
    let filenameIndex := sepIndex + 1 in
    match skip_dots p dotIndex (Z.to_nat (dotIndex - filenameIndex))
            filenameIndex with
    | Some r => r
    | None => (p, slice_to p 0)
    end
  else (p, slice_to p 0).

(** One turn of [os.path.join]: the path so far and the next component. *)
Definition join_step (path b : string) : string :=
  if startswith b "/" then b
  else if String.eqb path "" || endswith path "/" then path ++ b
  else path ++ "/" ++ b.

(** [os.path.join(a, *ps)] *)
Definition os_path_join (a : string) (ps : list string) : string :=
  fold_left join_step ps a.

Definition BASE_DIR : string := "/tmp/ai_music_studio".
Definition AUDIO_DIR : string := os_path_join BASE_DIR ["static"; "audio"].
Definition UPLOAD_DIR : string := os_path_join BASE_DIR ["uploads"].
Definition MIDI_DIR : string := os_path_join BASE_DIR ["static"; "midi"].

(** [a or b] on strings: the empty string is false. *)
Definition or_else (a b : string) : string :=
  if String.eqb a "" then b else a.

(** The destination of an upload, as [upload_reference] (prefix "ref_",
    default ".mp3") and [upload_voice] (prefix "voice_", default ".wav")
    compute it from the client's file name, which may be missing, and the
    identifier [uid]. *)
Definition upload_dest (prefix default : string)
  (filename : option string) (uid : string) : string :=
  let name := match filename with Some f => or_else f "" | None => "" end in
  let ext := or_else (snd (splitext name)) default in
  os_path_join UPLOAD_DIR [prefix ++ uid ++ ext].

Definition upload_reference_dest : option string -> string -> string :=
  upload_dest "ref_" ".mp3".

Definition upload_voice_dest : option string -> string -> string :=
  upload_dest "voice_" ".wav".

(** No character of the string is [c]. *)
Fixpoint lacks (c : ascii) (s : string) : bool :=
  match s with
  | EmptyString => true
  | String x s' => negb (Ascii.eqb x c) && lacks c s'
  end.

(** ** Exports on the file system *)

(** What a path holds.  The samples of a tone are floating-point sines
    and are not computed here: a tone file is recorded by the arguments
    of [_sine_wave_to_wav] that determine it.  [Other] is anything else
    found on disk, an uploaded file or a directory. *)
Inductive File : Type :=
| Tone (seconds freq volume : Q) (sample_rate : Z)
| Text (content : string)
| Other.

(** The files by path.  Writing inside the asset directories, which the
    module creates when it is loaded, is taken to succeed. *)
Definition FS : Type := string -> option File.

(** [os.path.exists(p)] *)
Definition path_exists (fs : FS) (p : string) : bool :=
  match fs p with Some _ => true | None => false end.

Definition write_file (fs : FS) (p : string) (f : File) : FS :=
  fun q => if String.eqb q p then Some f else fs q.

Definition _sine_wave_to_wav (path : string) (seconds freq : Q)
  (sample_rate : Z) (volume : Q) (fs : FS) : FS :=
  write_file fs path (Tone seconds freq volume sample_rate).

(** [d[k] = v] on a dictionary kept in insertion order. *)
Fixpoint dict_set {V} (d : list (string * V)) (k : string) (v : V)
  : list (string * V) :=
  match d with
  | [] => [(k, v)]
  | (k', v') :: d' =>
      if String.eqb k' k then (k', v) :: d' else (k', v') :: dict_set d' k v
  end.

Definition stems : list (string * Q) :=
  [("vocals", 440); ("drums", 120); ("bass", 55);
   ("piano", 2616 # 10); ("synth", 3296 # 10)]%Q.

Record Stems : Type := {
  stems_id : string;
  stems_urls : list (string * string)
}.

(** One turn of the loop of [export_stems]. *)
Definition stem_step (music_id : string)
  (st : list (string * string) * FS) (stem : string * Q)
  : list (string * string) * FS :=
  let '(urls, fs) := st in
  let '(name, f) := stem in
  let p := os_path_join AUDIO_DIR [music_id ++ "_" ++ name ++ ".wav"] in
  let fs := if negb (path_exists fs p)
            then _sine_wave_to_wav p 6 f 44100 (1 # 4) fs else fs in
  (dict_set urls name ("/static/audio/" ++ music_id ++ "_" ++ name ++ ".wav"),
   fs).

Definition export_stems (music_id : string) (fs : FS) : Stems * FS :=
  let '(urls, fs) := fold_left (stem_step music_id) stems ([], fs) in
  ({| stems_id := music_id; stems_urls := urls |}, fs).




(** A handler's answer: its value, or the 404 it returns. *)
Inductive Response (A : Type) : Type :=
| Found (a : A)
| NotFound (error : string).
Arguments Found {A} a.
Arguments NotFound {A} error.

Record Mastered : Type := {
  mastered_id : string;
  mastered_preset : string;
  mastered_audio_url : string
}.

Definition master_track (music_id preset : string) (fs : FS)
  : Response Mastered :=
  let wav_path := os_path_join AUDIO_DIR [music_id ++ ".wav"] in
  if negb (path_exists fs wav_path) then NotFound "Audio not found"
  else Found {| mastered_id := music_id;
                mastered_preset := preset;
                mastered_audio_url :=
                  "/static/audio/" ++ music_id ++ ".wav" |}.

Record FileResponse : Type := {
  file_path : string;
  media_type : string;
  file_name : string
}.

Definition export_audio (music_id ext : string) (fs : FS)
  : Response FileResponse :=
  let wav_path := os_path_join AUDIO_DIR [music_id ++ ".wav"] in
  if negb (path_exists fs wav_path) then NotFound "Audio not found"
  else Found {| file_path := wav_path;
                media_type := "audio/wav";
                file_name := "track_" ++ music_id ++ "." ++ ext |}.

(** * Properties *)

(** ** The built-ins *)

Lemma contains_In (l : list string) (x : string) :
  contains l x = true <-> In x l.
Proof.
  unfold contains. rewrite existsb_exists. split.
  - intros [y [Hy Heq]]. apply String.eqb_eq in Heq. now subst.
  - intros Hx. exists x. split; [assumption | apply String.eqb_refl].
Qed.

Lemma tonic_or_C_valid (tonic : string) : In (tonic_or_C tonic) NOTES_SHARP.
Proof.
  unfold tonic_or_C.
  destruct (contains NOTES_SHARP tonic) eqn:E; simpl negb; cbv iota.
  - now apply contains_In.
  - simpl. now left.
Qed.

Lemma tonic_or_C_id (tonic : string) :
  In tonic NOTES_SHARP -> tonic_or_C tonic = tonic.
Proof.
  intros H. apply contains_In in H. unfold tonic_or_C. now rewrite H.
Qed.

Lemma tonic_or_C_default (tonic : string) :
  ~ In tonic NOTES_SHARP -> tonic_or_C tonic = "C".
Proof.
  intros H. unfold tonic_or_C.
  destruct (contains NOTES_SHARP tonic) eqn:E; [|reflexivity].
  apply contains_In in E. contradiction.
Qed.

Lemma split_key_total (key : string) :
  exists tonic quality, split_key key = Ok (tonic, quality).
Proof.
  unfold split_key, unpack2.
  destruct (split key) as [|a [|b [|c l]]]; simpl; eauto.
Qed.

Lemma steps_of_pattern (quality : string) : steps_of quality = pattern quality.
Proof. reflexivity. Qed.

(** ** The scale builder against the specification's walk *)

Ltac each_note H :=
  repeat (destruct H as [H | H]; [subst | ]); [.. | contradiction].

Lemma scale_from_valid (tonic quality : string) :
  In tonic NOTES_SHARP ->
  (idx <- index NOTES_SHARP tonic ;;
   '(_, scale) <-
     for_each (but_last (steps_of quality)) scale_step (idx, [tonic]) ;;
   Ok scale) = Ok (scale_spec tonic quality).
Proof.
  intros H. unfold scale_spec. rewrite steps_of_pattern.
  unfold pattern. destruct (is_maj quality); simpl in H; each_note H;
    reflexivity.
Qed.

Lemma build_scale_split (key tonic quality : string) :
  split_key key = Ok (tonic, quality) ->
  build_scale key = Ok (scale_spec (tonic_or_C tonic) quality).
Proof.
  intros H. unfold build_scale. rewrite H. cbn [bind].
  apply scale_from_valid, tonic_or_C_valid.
Qed.

Lemma scale_spec_length (tonic quality : string) :
  List.length (scale_spec tonic quality) = 7%nat.
Proof. unfold scale_spec, pattern. now destruct (is_maj quality). Qed.

Example split_runs : split "  F#  Minor " = ["F#"; "Minor"].
Proof. reflexivity. Qed.

Example lower_Major : lower "MAJor7" = "major7".
Proof. reflexivity. Qed.

Example getitem_last : getitem NOTES_SHARP (-1) = Ok "B".
Proof. reflexivity. Qed.

Example getitem_out : getitem NOTES_SHARP 12 = @Raise string IndexError.
Proof. reflexivity. Qed.

Example index_missing : index NOTES_SHARP "Db" = Raise ValueError.
Proof. reflexivity. Qed.

Example range_negative : range (-4) = [].
Proof. reflexivity. Qed.

Example build_scale_C_Major :
  build_scale "C Major" = Ok ["C"; "D"; "E"; "F"; "G"; "A"; "B"].
Proof. reflexivity. Qed.

Example build_scale_A_Minor :
  build_scale "A Minor" = Ok ["A"; "B"; "C"; "D"; "E"; "F"; "G"].
Proof. reflexivity. Qed.

(** C1. Whatever the key, [build_scale] returns the tonic (after the
    replacement of an unknown tonic by C) followed by the pitch names
    reached by walking, modulo 12 from the tonic's index in [NOTES_SHARP],
    the first six steps of [2,2,1,2,2,2,1] when the lowercased quality
    starts with "maj" and of [2,1,2,2,1,2,2] otherwise: seven names, the
    tonic first.  "C Major" gives C D E F G A B and "A Minor" gives
    A B C D E F G. *)
Theorem build_scale_walks_pattern (key : string) :
  (exists tonic quality,
     split_key key = Ok (tonic, quality) /\
     let t := tonic_or_C tonic in
     let steps :=
       if String.prefix "maj" (lower quality)
       then [2; 2; 1; 2; 2; 2; 1] else [2; 1; 2; 2; 1; 2; 2] in
     let scale := t :: walk (position NOTES_SHARP t) (firstn 6 steps) in
     build_scale key = Ok scale /\
     List.length scale = 7%nat /\
     nth_error scale 0 = Some t) /\
  build_scale "C Major" = Ok ["C"; "D"; "E"; "F"; "G"; "A"; "B"] /\
  build_scale "A Minor" = Ok ["A"; "B"; "C"; "D"; "E"; "F"; "G"].
Proof.
  split; [| split; reflexivity].
  destruct (split_key_total key) as (tonic & quality & Hs).
  exists tonic, quality. split; [assumption|].
  cbv zeta. split; [| split].
  - apply (build_scale_split _ _ _ Hs).
  - apply (scale_spec_length (tonic_or_C tonic) quality).
  - reflexivity.
Qed.

Lemma build_scale_total (key : string) :
  exists scale, build_scale key = Ok scale /\ List.length scale = 7%nat.
Proof.
  destruct (split_key_total key) as (tonic & quality & Hs).
  exists (scale_spec (tonic_or_C tonic) quality). split.
  - now apply build_scale_split.
  - apply scale_spec_length.
Qed.

(** C7. [build_scale] raises on no string: every key, the empty one and
    those without a space included, gives a scale of seven names. *)
Theorem build_scale_never_raises (key : string) :
  exists scale, build_scale key = Ok scale /\ List.length scale = 7%nat.
Proof.
  destruct (split_key_total key) as (tonic & quality & Hs).
  exists (scale_spec (tonic_or_C tonic) quality). split.
  - now apply build_scale_split.
  - apply scale_spec_length.
Qed.

(** ** Keys made of two tokens *)

Lemma append_empty_r (s : string) : s ++ "" = s.
Proof. induction s as [|c s IH]; simpl; [reflexivity | now rewrite IH]. Qed.

Lemma append_assoc (a b c : string) : (a ++ b) ++ c = a ++ (b ++ c).
Proof. induction a as [|x a IH]; simpl; [reflexivity | now rewrite IH]. Qed.

(** A run of non-whitespace characters is read into the current token. *)
Lemma split_from_run (t cur rest : string) :
  no_space t = true ->
  split_from cur (t ++ rest) = split_from (cur ++ t) rest.
Proof.
  revert cur. induction t as [|c t IH]; intros cur Ht; simpl.
  - now rewrite append_empty_r.
  - simpl in Ht. apply andb_true_iff in Ht as [Hc Ht].
    apply negb_true_iff in Hc. rewrite Hc, (IH _ Ht), append_assoc.
    reflexivity.
Qed.

Lemma split_two_tokens (t q : string) :
  token t -> token q -> split (t ++ " " ++ q) = [t; q].
Proof.
  intros [Ht0 Ht] [Hq0 Hq]. unfold split.
  rewrite (split_from_run t "" _ Ht). simpl.
  destruct t as [|c t]; [contradiction|].
  f_equal. rewrite <- (append_empty_r q) at 1.
  rewrite (split_from_run q "" "" Hq). simpl.
  destruct q; [contradiction | reflexivity].
Qed.

Lemma split_key_two_tokens (t q : string) :
  token t -> token q -> split_key (t ++ " " ++ q) = Ok (t, q).
Proof.
  intros Ht Hq. unfold split_key. now rewrite (split_two_tokens t q Ht Hq).
Qed.

Lemma note_is_token (t : string) : In t NOTES_SHARP -> token t.
Proof.
  intros H. simpl in H. each_note H; split; (discriminate || reflexivity).
Qed.

Lemma build_scale_two_tokens (t q : string) :
  token t -> token q ->
  build_scale (t ++ " " ++ q) = Ok (scale_spec (tonic_or_C t) q).
Proof.
  intros Ht Hq. apply build_scale_split. now apply split_key_two_tokens.
Qed.

(** C4. A key made of one of the twelve pitch names, a space and "Major"
    or "Minor" gives seven names, the first of them the tonic. *)
Theorem build_scale_valid_key (T Q : string)
  (HT : In T NOTES_SHARP) (HQ : Q = "Major" \/ Q = "Minor") :
  exists scale,
    build_scale (T ++ " " ++ Q) = Ok scale /\
    List.length scale = 7%nat /\
    nth_error scale 0 = Some T.
Proof.
  assert (HQt : token Q)
    by (destruct HQ; subst; split; (discriminate || reflexivity)).
  exists (scale_spec T Q). split; [| split].
  - rewrite (build_scale_two_tokens T Q (note_is_token T HT) HQt).
    now rewrite (tonic_or_C_id T HT).
  - apply scale_spec_length.
  - reflexivity.
Qed.

Lemma build_scale_valid_key_witness :
  In "F#" NOTES_SHARP /\ ("Minor" = "Major" \/ "Minor" = "Minor") /\
  exists scale,
    build_scale "F# Minor" = Ok scale /\
    List.length scale = 7%nat /\
    nth_error scale 0 = Some "F#".
Proof.
  split; [simpl; tauto |]. split; [right; reflexivity |].
  apply (build_scale_valid_key "F#" "Minor");
    [simpl; tauto | right; reflexivity].
Defined.

(** C5. A tonic token that is none of the twelve pitch names is replaced
    by C: with any quality token the key gives the scale of "C" with that
    quality, and "Z Major" gives the scale of "C Major". *)
Theorem build_scale_invalid_tonic (t Q : string)
  (Ht : token t) (HQ : token Q) (Hinv : ~ In t NOTES_SHARP) :
  build_scale (t ++ " " ++ Q) = build_scale ("C " ++ Q) /\
  build_scale "Z Major" = build_scale "C Major".
Proof.
  split; [| reflexivity].
  rewrite (build_scale_two_tokens t Q Ht HQ).
  change ("C " ++ Q) with ("C" ++ " " ++ Q).
  pose proof (note_is_token "C" (or_introl eq_refl)) as HC.
  rewrite (build_scale_two_tokens "C" Q HC HQ).
  now rewrite (tonic_or_C_default t Hinv).
Qed.

Lemma build_scale_invalid_tonic_witness :
  token "H" /\ token "minor" /\ ~ In "H" NOTES_SHARP /\
  build_scale "H minor" = build_scale "C minor" /\
  build_scale "Z Major" = build_scale "C Major".
Proof.
  assert (H1 : token "H") by (split; [discriminate | reflexivity]).
  assert (H2 : token "minor") by (split; [discriminate | reflexivity]).
  assert (H3 : ~ In "H" NOTES_SHARP)
    by (simpl; intros H; each_note H; discriminate).
  split; [exact H1 |]. split; [exact H2 |]. split; [exact H3 |].
  exact (build_scale_invalid_tonic "H" "minor" H1 H2 H3).
Defined.

(** C6, as the specification words it, fails: the quality "Foo" is neither
    "Major" nor "Minor", and "C Foo" gives the minor scale of C, not the
    scale of "C Major". *)
Lemma invalid_quality_is_not_major :
  ~ (forall T Q : string,
       In T NOTES_SHARP -> token Q -> Q <> "Major" -> Q <> "Minor" ->
       build_scale (T ++ " " ++ Q) = build_scale (T ++ " " ++ "Major")).
Proof.
  intros H.
  specialize (H "C" "Foo" (or_introl eq_refl)).
  assert (Ht : token "Foo") by (split; [discriminate | reflexivity]).
  specialize (H Ht). vm_compute in H.
  assert (E : Ok ["C"; "D"; "D#"; "F"; "G"; "G#"; "A#"]
              = Ok ["C"; "D"; "E"; "F"; "G"; "A"; "B"])
    by (apply H; discriminate).
  discriminate E.
Qed.

(** C6, amended. With a valid tonic, a quality token selects by its
    lowercased first three characters alone: the key gives the scale of
    the tonic with "Major" when they are "maj" and the scale of the tonic
    with "Minor" otherwise, so a quality that is neither "Major" nor
    "Minor" and does not start with "maj" gives the minor scale. *)
Theorem build_scale_quality_prefix (T Q : string)
  (HT : In T NOTES_SHARP) (HQ : token Q) :
  build_scale (T ++ " " ++ Q)
  = build_scale (T ++ " " ++ (if String.prefix "maj" (lower Q)
                              then "Major" else "Minor")).
Proof.
  pose proof (note_is_token T HT) as Ht.
  rewrite (build_scale_two_tokens T Q Ht HQ).
  assert (Hm : token "Major") by (split; [discriminate | reflexivity]).
  assert (Hn : token "Minor") by (split; [discriminate | reflexivity]).
  unfold scale_spec, pattern, is_maj.
  destruct (String.prefix "maj" (lower Q)).
  - now rewrite (build_scale_two_tokens T "Major" Ht Hm).
  - now rewrite (build_scale_two_tokens T "Minor" Ht Hn).
Qed.

Lemma build_scale_quality_prefix_witness :
  In "D" NOTES_SHARP /\ token "Foo" /\
  build_scale "D Foo" = build_scale "D Minor".
Proof.
  assert (H1 : In "D" NOTES_SHARP) by (simpl; tauto).
  assert (H2 : token "Foo") by (split; [discriminate | reflexivity]).
  split; [exact H1 |]. split; [exact H2 |].
  exact (build_scale_quality_prefix "D" "Foo" H1 H2).
Defined.

(** ** Keys that are not two tokens *)

Lemma split_key_not_two (key : string) :
  List.length (split key) <> 2%nat -> split_key key = Ok (key, "Major").
Proof.
  unfold split_key, unpack2.
  destruct (split key) as [|a [|b [|c l]]]; simpl; intros H;
    try reflexivity.
  now contradiction H.
Qed.

Lemma note_is_one_token (t : string) :
  In t NOTES_SHARP -> List.length (split t) = 1%nat.
Proof. intros H. simpl in H. each_note H; reflexivity. Qed.

(** C10. A key that does not split into exactly two tokens is, whole, the
    tonic, with the quality "Major": it gives the major scale of the key
    when the key is one of the twelve pitch names ("E" gives E major) and
    C D E F G A B otherwise, which is the case of the empty key and of
    every key of three tokens or more ("C# Minor 7"). *)
Theorem build_scale_not_two_tokens (key : string)
  (H : List.length (split key) <> 2%nat) :
  split_key key = Ok (key, "Major") /\
  build_scale key
  = Ok (tonic_or_C key
        :: walk (position NOTES_SHARP (tonic_or_C key)) [2; 2; 1; 2; 2; 2]) /\
  (~ In key NOTES_SHARP ->
   build_scale key = Ok ["C"; "D"; "E"; "F"; "G"; "A"; "B"]) /\
  ((key = "" \/ (3 <= List.length (split key))%nat) ->
   ~ In key NOTES_SHARP) /\
  build_scale "E" = Ok ["E"; "F#"; "G#"; "A"; "B"; "C#"; "D#"] /\
  build_scale "" = Ok ["C"; "D"; "E"; "F"; "G"; "A"; "B"] /\
  build_scale "C# Minor 7" = Ok ["C"; "D"; "E"; "F"; "G"; "A"; "B"].
Proof.
  pose proof (split_key_not_two key H) as Hs.
  pose proof (build_scale_split key key "Major" Hs) as Hb.
  split; [exact Hs |]. split; [exact Hb |].
  split; [| split; [| repeat split]].
  - intros Hn. rewrite Hb, (tonic_or_C_default key Hn). reflexivity.
  - intros [-> | H3] Hin.
    + simpl in Hin. each_note Hin; discriminate.
    + rewrite (note_is_one_token key Hin) in H3. lia.
Qed.

Lemma build_scale_not_two_tokens_witness :
  List.length (split "G Minor 7") <> 2%nat /\
  split_key "G Minor 7" = Ok ("G Minor 7", "Major") /\
  build_scale "G Minor 7"
  = Ok (tonic_or_C "G Minor 7"
        :: walk (position NOTES_SHARP (tonic_or_C "G Minor 7"))
             [2; 2; 1; 2; 2; 2]) /\
  (~ In "G Minor 7" NOTES_SHARP ->
   build_scale "G Minor 7" = Ok ["C"; "D"; "E"; "F"; "G"; "A"; "B"]) /\
  (("G Minor 7" = "" \/ (3 <= List.length (split "G Minor 7"))%nat) ->
   ~ In "G Minor 7" NOTES_SHARP) /\
  build_scale "E" = Ok ["E"; "F#"; "G#"; "A"; "B"; "C#"; "D#"] /\
  build_scale "" = Ok ["C"; "D"; "E"; "F"; "G"; "A"; "B"] /\
  build_scale "C# Minor 7" = Ok ["C"; "D"; "E"; "F"; "G"; "A"; "B"].
Proof.
  assert (H : List.length (split "G Minor 7") <> 2%nat)
    by (vm_compute; discriminate).
  split; [exact H |].
  exact (build_scale_not_two_tokens "G Minor 7" H).
Defined.

(** ** Chord progression *)

Lemma generate_chords_of_scale (key tonic quality : string) :
  In tonic NOTES_SHARP ->
  build_scale key = Ok (scale_spec tonic quality) ->
  generate_chords key
  = Ok {| chords_key := key;
          progression := map (label_spec (scale_spec tonic quality))
                             [0; 5; 3; 4] |}.
Proof.
  intros Hin Hb. unfold generate_chords. rewrite Hb. cbn [bind].
  unfold scale_spec, pattern.
  destruct (is_maj quality); simpl in Hin; each_note Hin; reflexivity.
Qed.

(** C2. [generate_chords] returns the key it was given and four labels,
    those of the degrees 0, 5, 3 and 4 of the scale of the key in that
    order: the pitch name at degree 0, 3 or 4, the pitch name followed
    by "m" at any other degree.  For "C Major" they are C, Am, F, G. *)
Theorem generate_chords_progression (key : string) :
  (exists scale prog,
     build_scale key = Ok scale /\
     generate_chords key = Ok {| chords_key := key; progression := prog |} /\
     prog = map (label_spec scale) [0; 5; 3; 4] /\
     List.length prog = 4%nat) /\
  generate_chords "C Major"
  = Ok {| chords_key := "C Major"; progression := ["C"; "Am"; "F"; "G"] |}.
Proof.
  split; [| reflexivity].
  destruct (split_key_total key) as (tonic & quality & Hs).
  pose proof (build_scale_split key tonic quality Hs) as Hb.
  exists (scale_spec (tonic_or_C tonic) quality).
  eexists. split; [exact Hb |]. split; [| split; reflexivity].
  now apply generate_chords_of_scale; [apply tonic_or_C_valid |].
Qed.

(** ** Melody *)

Lemma getitem_in_range {A} (l : list A) (i : Z) :
  0 <= i < Z.of_nat (List.length l) ->
  exists x, getitem l i = Ok x /\ In x l.
Proof.
  intros Hi. unfold getitem.
  destruct (Z.ltb_spec i 0) as [Hneg | _]; [lia |].
  destruct (Z.ltb_spec i 0) as [Hneg | _]; [lia |].
  destruct (Z.leb_spec (Z.of_nat (List.length l)) i) as [Hbig | _]; [lia |].
  cbn [orb].
  destruct (nth_error l (Z.to_nat i)) as [x |] eqn:E.
  - exists x. split; [reflexivity |]. eapply nth_error_In, E.
  - apply nth_error_None in E. lia.
Qed.

Section Melody.

Variable R : Random.
Hypothesis HR : lawful R.

Lemma choice_lawful {A} (l : list A) (g : rng R) :
  l <> [] -> exists x g', choice l g = Ok (x, g') /\ In x l.
Proof.
  intros Hl. unfold choice.
  destruct l as [| a l']; [contradiction |]. cbn [List.length Nat.eqb].
  set (n := Z.of_nat (S (List.length l'))).
  pose proof (HR n g ltac:(subst n; lia)) as Hlt.
  destruct (randbelow R n g) as [i g']. cbn [fst] in Hlt.
  destruct (getitem_in_range (a :: l') i Hlt) as (x & Hx & Hin).
  rewrite Hx. eauto.
Qed.

Lemma melody_step_lawful (scale : list string) (i : Z) (acc : list Note)
  (g : rng R) :
  scale <> [] ->
  exists e g',
    melody_step R scale i acc g = Ok ((acc ++ [e])%list, g') /\
    entry_spec scale e.
Proof.
  intros Hs. unfold melody_step, bindM.
  destruct (choice_lawful scale g Hs) as (n & g1 & -> & Hn).
  destruct (choice_lawful durations g1 ltac:(discriminate))
    as (dur & g2 & -> & Hd).
  destruct (choice_lawful octaves g2 ltac:(discriminate))
    as (o & g3 & -> & Ho).
  eexists. exists g3. split; [reflexivity |].
  split; cbn [note duration].
  - exists n, (str o). split; [exact Hn |]. split; [| reflexivity].
    simpl in Ho. destruct Ho as [<- | [<- | []]]; [left | right]; reflexivity.
  - simpl in Hd. intuition (subst; auto).
Qed.

Lemma melody_loop_lawful (scale : list string) (l : list Z) :
  scale <> [] ->
  forall (acc : list Note) (g : rng R),
  exists mel g',
    for_eachM l (melody_step R scale) acc g = Ok ((acc ++ mel)%list, g') /\
    List.length mel = List.length l /\
    Forall (entry_spec scale) mel.
Proof.
  intros Hs. induction l as [| i l IH]; intros acc g.
  - exists [], g. rewrite app_nil_r. repeat split. constructor.
  - cbn [for_eachM]. unfold bindM at 1.
    destruct (melody_step_lawful scale i acc g Hs) as (e & g1 & -> & He).
    destruct (IH (acc ++ [e])%list g1) as (mel & g' & -> & Hlen & Hall).
    exists (e :: mel), g'. rewrite <- app_assoc. cbn [app List.length].
    repeat split; [now rewrite Hlen | now constructor].
Qed.

Lemma range_length (n : Z) : List.length (range n) = Z.to_nat n.
Proof. unfold range. now rewrite length_map, length_seq. Qed.

Lemma generate_melody_lawful (key : string) (bars bpm : Z) (g : rng R) :
  exists scale mel g',
    build_scale key = Ok scale /\
    generate_melody R key bars bpm g
    = Ok ({| melody_key := key; melody_bpm := bpm; melody := mel |}, g') /\
    List.length mel = Z.to_nat (bars * 4) /\
    Forall (entry_spec scale) mel.
Proof.
  destruct (build_scale_total key) as (scale & Hb & Hlen).
  assert (Hs : scale <> []) by (intros ->; discriminate).
  destruct (melody_loop_lawful scale (range (bars * 4)) Hs [] g)
    as (mel & g' & Hloop & Hl & Hall).
  exists scale, mel, g'. split; [exact Hb |].
  split; [| split; [now rewrite Hl, range_length | exact Hall]].
  unfold generate_melody, bindM, lift. rewrite Hb, Hloop. reflexivity.
Qed.

End Melody.

Lemma lcg_lawful : lawful lcg.
Proof.
  intros n g Hn. cbn [randbelow lcg fst]. now apply Z.mod_pos_bound.
Qed.






(** C9. The bpm is only handed back: from the same generator state, two
    calls with the same key and bars and any two bpm values produce the
    same melody and leave the same generator state, and each returns in
    its bpm field the bpm it was given. *)
Theorem generate_melody_bpm_passthrough (R : Random) (HR : lawful R)
  (key : string) (bars bpm1 bpm2 : Z) (g : rng R) :
  exists mel g',
    generate_melody R key bars bpm1 g
    = Ok ({| melody_key := key; melody_bpm := bpm1; melody := mel |}, g') /\
    generate_melody R key bars bpm2 g
    = Ok ({| melody_key := key; melody_bpm := bpm2; melody := mel |}, g').
Proof.
  destruct (generate_melody_lawful R HR key bars bpm1 g)
    as (scale & mel & g' & Hb & Hrun & _).
  exists mel, g'. split; [exact Hrun |].
  revert Hrun. unfold generate_melody, bindM, lift. rewrite Hb.
  destruct (for_eachM (range (bars * 4)) (melody_step R scale) [] g)
    as [[mel' g''] | e]; [| discriminate].
  unfold ret. intros E. injection E as <- <-. reflexivity.
Qed.

Lemma generate_melody_bpm_passthrough_witness :
  lawful lcg /\
  exists mel g',
    generate_melody lcg "E Minor" 2 60 (seed lcg 11)
    = Ok ({| melody_key := "E Minor"; melody_bpm := 60; melody := mel |},
          g') /\
    generate_melody lcg "E Minor" 2 180 (seed lcg 11)
    = Ok ({| melody_key := "E Minor"; melody_bpm := 180; melody := mel |},
          g').
Proof.
  split; [exact lcg_lawful |].
  exact (generate_melody_bpm_passthrough lcg lcg_lawful
           "E Minor" 2 60 180 (seed lcg 11)).
Defined.

(** * Further properties of the scale builder *)

(** Every scale is one of twenty-four lists. *)
Lemma scale_spec_cases (P : list string -> Prop) :
  (forall (t : string) (b : bool), In t NOTES_SHARP ->
     P (t :: walk (position NOTES_SHARP t)
               (firstn 6 (if b then [2; 2; 1; 2; 2; 2; 1]
                          else [2; 1; 2; 2; 1; 2; 2])))) ->
  forall key, exists scale, build_scale key = Ok scale /\ P scale.
Proof.
  intros HP key.
  destruct (split_key_total key) as (tonic & quality & Hs).
  exists (scale_spec (tonic_or_C tonic) quality).
  split; [now apply build_scale_split |].
  apply (HP (tonic_or_C tonic) (is_maj quality)), tonic_or_C_valid.
Qed.

(** X1. The seven names of a scale are pairwise different names of
    [NOTES_SHARP], whatever the key. *)
Theorem build_scale_distinct (key : string) :
  exists scale,
    build_scale key = Ok scale /\
    NoDup scale /\
    incl scale NOTES_SHARP.
Proof.
  apply scale_spec_cases. intros t b Ht.
  destruct b; simpl in Ht; each_note Ht; cbn; split;
    try (repeat constructor; simpl; intuition discriminate);
    intros x Hx; simpl in Hx; simpl; intuition.
Qed.

(** Tokens are what [split] returns. *)
Lemma no_space_app (a b : string) :
  no_space a = true -> no_space b = true -> no_space (a ++ b) = true.
Proof.
  intros Ha Hb. induction a as [| c a IH]; simpl in *; [assumption |].
  apply andb_true_iff in Ha as [Hc Ha]. now rewrite Hc, (IH Ha).
Qed.

Lemma split_from_tokens (s cur : string) :
  no_space cur = true -> Forall token (split_from cur s).
Proof.
  revert cur. induction s as [| c s IH]; intros cur Hcur; simpl.
  - destruct cur; constructor; [| constructor].
    split; [discriminate | assumption].
  - destruct (isspace c) eqn:Hc.
    + destruct cur; [now apply IH |].
      constructor; [split; [discriminate | assumption] | now apply IH].
    + apply IH, no_space_app; [assumption |]. simpl. now rewrite Hc.
Qed.

Lemma split_tokens (s : string) : Forall token (split s).
Proof. now apply split_from_tokens. Qed.

(** X2. Only the two tokens of a key count: a key that splits into a
    tonic and a quality, however they are spaced, gives the scale of the
    tonic, one space and the quality. *)
Theorem build_scale_spacing (key t q : string) (H : split key = [t; q]) :
  build_scale key = build_scale (t ++ " " ++ q).
Proof.
  pose proof (split_tokens key) as Htok. rewrite H in Htok.
  inversion Htok as [| ? ? Ht Htl]; subst.
  inversion Htl as [| ? ? Hq _]; subst.
  rewrite (build_scale_two_tokens t q Ht Hq).
  apply build_scale_split. unfold split_key. now rewrite H.
Qed.

Lemma build_scale_spacing_witness :
  split "  G#   minor " = ["G#"; "minor"] /\
  build_scale "  G#   minor " = build_scale "G# minor".
Proof.
  split; [reflexivity |].
  exact (build_scale_spacing "  G#   minor " "G#" "minor" eq_refl).
Defined.

(** X3. The quality is read without regard to case: two quality tokens
    with the same lowercase form give, after the same tonic token, the
    same scale. *)
Theorem build_scale_quality_case (t q1 q2 : string)
  (Ht : token t) (H1 : token q1) (H2 : token q2)
  (Hlow : lower q1 = lower q2) :
  build_scale (t ++ " " ++ q1) = build_scale (t ++ " " ++ q2).
Proof.
  rewrite (build_scale_two_tokens t q1 Ht H1).
  rewrite (build_scale_two_tokens t q2 Ht H2).
  unfold scale_spec, pattern, is_maj. now rewrite Hlow.
Qed.

Lemma build_scale_quality_case_witness :
  token "D" /\ token "MAJOR" /\ token "major" /\
  lower "MAJOR" = lower "major" /\
  build_scale "D MAJOR" = build_scale "D major".
Proof.
  assert (H0 : token "D") by (split; [discriminate | reflexivity]).
  assert (H1 : token "MAJOR") by (split; [discriminate | reflexivity]).
  assert (H2 : token "major") by (split; [discriminate | reflexivity]).
  repeat (split; [assumption || reflexivity |]).
  exact (build_scale_quality_case "D" "MAJOR" "major" H0 H1 H2 eq_refl).
Defined.



(** ** Rotation and transposition *)

Lemma mod12_cases (k : Z) :
  let r := k mod 12 in
  r = 0 \/ r = 1 \/ r = 2 \/ r = 3 \/ r = 4 \/ r = 5 \/
  r = 6 \/ r = 7 \/ r = 8 \/ r = 9 \/ r = 10 \/ r = 11.
Proof. cbv zeta. pose proof (Z.mod_pos_bound k 12 ltac:(lia)). lia. Qed.

Lemma pitch_mod (i : Z) : pitch (i mod 12) = pitch i.
Proof. unfold pitch. now rewrite Z.mod_mod by lia. Qed.

Lemma pitch_valid (i : Z) : In (pitch i) NOTES_SHARP.
Proof.
  rewrite <- pitch_mod. pose proof (mod12_cases i) as H. cbv zeta in H.
  repeat (destruct H as [H | H]; [rewrite H; cbn; tauto |]).
  rewrite H; cbn; tauto.
Qed.

Lemma transpose_mod (k : Z) (n : string) :
  transpose (k mod 12) n = transpose k n.
Proof.
  unfold transpose, pitch. now rewrite Z.add_mod_idemp_r by lia.
Qed.

Lemma transpose_valid (k : Z) (n : string) : In (transpose k n) NOTES_SHARP.
Proof. apply pitch_valid. Qed.

(** X5. The minor scale of a pitch name is the major scale of the name
    three semitones above it, started at its sixth element: "A Minor" is
    "C Major" read from A. *)
Theorem build_scale_relative_major (T : string) (HT : In T NOTES_SHARP) :
  exists major,
    build_scale (transpose 3 T ++ " Major") = Ok major /\
    build_scale (T ++ " Minor") = Ok (rotate 5 major).
Proof.
  simpl in HT. each_note HT; eexists; split; reflexivity.
Qed.

Lemma build_scale_relative_major_witness :
  In "E" NOTES_SHARP /\
  exists major,
    build_scale (transpose 3 "E" ++ " Major") = Ok major /\
    build_scale ("E" ++ " Minor") = Ok (rotate 5 major).
Proof.
  assert (H : In "E" NOTES_SHARP) by (simpl; tauto).
  split; [exact H |]. exact (build_scale_relative_major "E" H).
Defined.

Lemma scale_spec_transpose (k : Z) (T Q : string) :
  In T NOTES_SHARP ->
  scale_spec (transpose k T) Q = map (transpose k) (scale_spec T Q).
Proof.
  intros HT. rewrite <- (transpose_mod k T).
  rewrite (map_ext _ _ (fun n => eq_sym (transpose_mod k n))).
  pose proof (mod12_cases k) as Hk. cbv zeta in Hk.
  unfold scale_spec, pattern. destruct (is_maj Q); simpl in HT;
    each_note HT;
    repeat (destruct Hk as [Hk | Hk]; [rewrite Hk; reflexivity |]);
    rewrite Hk; reflexivity.
Qed.

(** X6. Building a scale commutes with transposition: the scale of the
    tonic moved up by [k] semitones, [k] any integer, is the scale of the
    tonic with each name moved up by [k] semitones. *)
Theorem build_scale_transpose (k : Z) (T Q : string)
  (HT : In T NOTES_SHARP) (HQ : token Q) :
  exists scale,
    build_scale (T ++ " " ++ Q) = Ok scale /\
    build_scale (transpose k T ++ " " ++ Q) = Ok (map (transpose k) scale).
Proof.
  exists (scale_spec T Q). split.
  - rewrite (build_scale_two_tokens T Q (note_is_token T HT) HQ).
    now rewrite (tonic_or_C_id T HT).
  - pose proof (transpose_valid k T) as Hv.
    rewrite (build_scale_two_tokens _ Q (note_is_token _ Hv) HQ).
    rewrite (tonic_or_C_id _ Hv). f_equal.
    now apply scale_spec_transpose.
Qed.

Lemma build_scale_transpose_witness :
  In "A" NOTES_SHARP /\ token "Minor" /\
  exists scale,
    build_scale ("A" ++ " " ++ "Minor") = Ok scale /\
    build_scale (transpose (-14) "A" ++ " " ++ "Minor")
    = Ok (map (transpose (-14)) scale).
Proof.
  assert (H0 : In "A" NOTES_SHARP) by (simpl; tauto).
  assert (H1 : token "Minor") by (split; [discriminate | reflexivity]).
  split; [exact H0 |]. split; [exact H1 |].
  exact (build_scale_transpose (-14) "A" "Minor" H0 H1).
Defined.

(** ** The chords by semitones *)

(** X7. Counted in semitones above the tonic, the progression is the
    tonic, the name 9 (major pattern) or 8 (minor pattern) semitones up
    followed by "m", the name 5 up and the name 7 up: the first, third
    and fourth chords do not depend on the quality, and the tonic chord
    carries no "m" in a minor key either. *)
Theorem generate_chords_semitones (key : string) :
  exists tonic quality prog,
    split_key key = Ok (tonic, quality) /\
    generate_chords key = Ok {| chords_key := key; progression := prog |} /\
    let T := tonic_or_C tonic in
    let i := position NOTES_SHARP T in
    prog = [T;
            pitch (i + (if String.prefix "maj" (lower quality)
                        then 9 else 8)) ++ "m";
            pitch (i + 5);
            pitch (i + 7)].
Proof.
  destruct (split_key_total key) as (tonic & quality & Hs).
  pose proof (build_scale_split key tonic quality Hs) as Hb.
  pose proof (tonic_or_C_valid tonic) as Hv.
  exists tonic, quality. eexists. split; [exact Hs |].
  split; [now apply (generate_chords_of_scale key _ quality Hv) |].
  cbv zeta. unfold scale_spec, pattern, is_maj.
  revert Hv. generalize (tonic_or_C tonic). intros T HT.
  destruct (String.prefix "maj" (lower quality)); simpl in HT;
    each_note HT; reflexivity.
Qed.

(** * Further properties of the melody generator *)

Section MelodyLoop.

Variable R : Random.
Variable scale : list string.

Lemma melody_step_acc (i : Z) (acc : list Note) (g : rng R) :
  melody_step R scale i acc g
  = match melody_step R scale i [] g with
    | Ok (m, g') => Ok ((acc ++ m)%list, g')
    | Raise e => Raise e
    end.
Proof.
  unfold melody_step, bindM, ret.
  destruct (choice scale g) as [[n g1] | e]; [| reflexivity].
  destruct (choice durations g1) as [[d g2] | e]; [| reflexivity].
  destruct (choice octaves g2) as [[o g3] | e]; reflexivity.
Qed.

Lemma melody_loop_acc (l : list Z) :
  forall (acc : list Note) (g : rng R),
  for_eachM l (melody_step R scale) acc g
  = match for_eachM l (melody_step R scale) [] g with
    | Ok (m, g') => Ok ((acc ++ m)%list, g')
    | Raise e => Raise e
    end.
Proof.
  induction l as [| i l IH]; intros acc g; cbn [for_eachM].
  - unfold ret. now rewrite app_nil_r.
  - unfold bindM. rewrite (melody_step_acc i acc g).
    destruct (melody_step R scale i [] g) as [[m g1] | e]; [| reflexivity].
    rewrite (IH (acc ++ m)%list g1), (IH m g1).
    destruct (for_eachM l (melody_step R scale) [] g1) as [[m' g2] | e];
      [| reflexivity].
    now rewrite app_assoc.
Qed.

Lemma melody_loop_count (l1 l2 : list Z) :
  List.length l1 = List.length l2 ->
  forall (acc : list Note) (g : rng R),
  for_eachM l1 (melody_step R scale) acc g
  = for_eachM l2 (melody_step R scale) acc g.
Proof.
  revert l2. induction l1 as [| i l1 IH]; intros [| j l2] Hlen acc g;
    try discriminate; [reflexivity |].
  cbn [for_eachM]. unfold bindM.
  change (melody_step R scale j acc g) with (melody_step R scale i acc g).
  destruct (melody_step R scale i acc g) as [[m g1] | e]; [| reflexivity].
  apply IH. now injection Hlen.
Qed.

Lemma melody_loop_app (l1 l2 : list Z) :
  forall (acc : list Note) (g : rng R),
  for_eachM (l1 ++ l2) (melody_step R scale) acc g
  = bindM (for_eachM l1 (melody_step R scale) acc)
      (for_eachM l2 (melody_step R scale)) g.
Proof.
  induction l1 as [| i l1 IH]; intros acc g; cbn [for_eachM app].
  - reflexivity.
  - unfold bindM.
    destruct (melody_step R scale i acc g) as [[m g1] | e]; [| reflexivity].
    rewrite IH. reflexivity.
Qed.

End MelodyLoop.

(** X8. Melodies compose: the melody of [b1 + b2] bars, neither count
    negative, is the melody of [b1] bars followed by the melody of [b2]
    bars generated from the state the first generation left, with any
    generator. *)
Theorem generate_melody_bars_add (R : Random) (key : string)
  (b1 b2 bpm : Z) (g : rng R) (H1 : 0 <= b1) (H2 : 0 <= b2) :
  generate_melody R key (b1 + b2) bpm g
  = bindM (generate_melody R key b1 bpm) (fun r1 =>
    bindM (generate_melody R key b2 bpm) (fun r2 =>
    ret {| melody_key := key; melody_bpm := bpm;
           melody := (melody r1 ++ melody r2)%list |})) g.
Proof.
  destruct (build_scale_total key) as (scale & Hb & _).
  unfold generate_melody, bindM, lift, ret. rewrite Hb.
  rewrite (melody_loop_count R scale (range ((b1 + b2) * 4))
             (range (b1 * 4) ++ range (b2 * 4))%list)
    by (rewrite length_app, !range_length; lia).
  rewrite melody_loop_app. unfold bindM.
  destruct (for_eachM (range (b1 * 4)) (melody_step R scale) [] g)
    as [[m1 g1] | e]; [| reflexivity].
  rewrite (melody_loop_acc R scale (range (b2 * 4)) m1 g1).
  destruct (for_eachM (range (b2 * 4)) (melody_step R scale) [] g1)
    as [[m2 g2] | e]; reflexivity.
Qed.

Lemma generate_melody_bars_add_witness :
  0 <= 1 /\ 0 <= 2 /\
  generate_melody lcg "D Major" (1 + 2) 100 (seed lcg 9)
  = bindM (generate_melody lcg "D Major" 1 100) (fun r1 =>
    bindM (generate_melody lcg "D Major" 2 100) (fun r2 =>
    ret {| melody_key := "D Major"; melody_bpm := 100;
           melody := (melody r1 ++ melody r2)%list |})) (seed lcg 9).
Proof.
  assert (H1 : 0 <= 1) by lia. assert (H2 : 0 <= 2) by lia.
  split; [exact H1 |]. split; [exact H2 |].
  exact (generate_melody_bars_add lcg "D Major" 1 2 100 (seed lcg 9) H1 H2).
Defined.

(** X9. With a bar count of zero or less no draw is made: the melody is
    empty and the generator is left as it was, with any generator. *)
Theorem generate_melody_no_bars (R : Random) (key : string)
  (bars bpm : Z) (g : rng R) (H : bars <= 0) :
  generate_melody R key bars bpm g
  = Ok ({| melody_key := key; melody_bpm := bpm; melody := [] |}, g).
Proof.
  destruct (build_scale_total key) as (scale & Hb & _).
  unfold generate_melody, bindM, lift. rewrite Hb.
  unfold range. replace (Z.to_nat (bars * 4)) with 0%nat by lia.
  reflexivity.
Qed.

Lemma generate_melody_no_bars_witness :
  -3 <= 0 /\
  generate_melody lcg "Bb Minor" (-3) 75 (seed lcg 1)
  = Ok ({| melody_key := "Bb Minor"; melody_bpm := 75; melody := [] |},
        seed lcg 1).
Proof.
  assert (H : -3 <= 0) by lia. split; [exact H |].
  exact (generate_melody_no_bars lcg "Bb Minor" (-3) 75 (seed lcg 1) H).
Defined.

(** * The analysis helper and the tone of a request *)

Lemma randint_lawful (R : Random) (HR : lawful R) (a b : Z) (g : rng R) :
  a <= b ->
  exists n g', randint R a b g = Ok (n, g') /\ a <= n <= b.
Proof.
  intros Hab. unfold randint, randrange. cbv zeta.
  destruct (Z.ltb_spec 0 (b + 1 - a)) as [Hw | Hw]; [| lia].
  pose proof (HR (b + 1 - a) g Hw) as Hlt.
  destruct (randbelow R (b + 1 - a) g) as [i g']. cbn [fst] in Hlt.
  exists (a + i), g'. split; [reflexivity | lia].
Qed.

(** X10. With a generator that keeps the contract of [_randbelow], the
    analysis helper returns a bpm from 70 to 140, which the generation
    request accepts, a style of its list, and a key of its list; each of
    these keys is a pitch name, a space and "Major" or "Minor", so
    [build_scale] gives its scale with the key's own tonic first. *)
Theorem random_bpm_key_style_range (R : Random) (HR : lawful R)
  (g : rng R) :
  exists bpms keys style g',
    _random_bpm_key_style R g = Ok ((bpms, keys, style), g') /\
    70 <= bpms <= 140 /\
    bpm_accepted bpms = true /\
    In keys analysis_keys /\
    In style analysis_styles /\
    exists T Q scale,
      keys = T ++ " " ++ Q /\
      In T NOTES_SHARP /\
      (Q = "Major" \/ Q = "Minor") /\
      build_scale keys = Ok scale /\
      nth_error scale 0 = Some T.
Proof.
  unfold _random_bpm_key_style, bindM.
  destruct (randint_lawful R HR 70 140 g ltac:(lia))
    as (bpms & g1 & -> & Hb).
  destruct (choice_lawful R HR analysis_keys g1 ltac:(discriminate))
    as (keys & g2 & -> & Hk).
  destruct (choice_lawful R HR analysis_styles g2 ltac:(discriminate))
    as (style & g3 & -> & Hs).
  exists bpms, keys, style, g3. split; [reflexivity |].
  split; [exact Hb |].
  split; [unfold bpm_accepted; apply andb_true_iff; split;
          apply Z.leb_le; lia |].
  split; [exact Hk |]. split; [exact Hs |].
  simpl in Hk. destruct Hk as [<- | [<- | [<- | [<- | [<- | []]]]]].
  - exists "C", "Major". eexists. cbn. intuition.
  - exists "A", "Minor". eexists. cbn. intuition.
  - exists "G", "Minor". eexists. cbn. intuition.
  - exists "D", "Major". eexists. cbn. intuition.
  - exists "F#", "Minor". eexists. cbn. intuition.
Qed.

Lemma random_bpm_key_style_range_witness :
  lawful lcg /\
  exists bpms keys style g',
    _random_bpm_key_style lcg (seed lcg 2024) = Ok ((bpms, keys, style), g') /\
    70 <= bpms <= 140 /\
    bpm_accepted bpms = true /\
    In keys analysis_keys /\
    In style analysis_styles /\
    exists T Q scale,
      keys = T ++ " " ++ Q /\
      In T NOTES_SHARP /\
      (Q = "Major" \/ Q = "Minor") /\
      build_scale keys = Ok scale /\
      nth_error scale 0 = Some T.
Proof.
  split; [exact lcg_lawful |].
  exact (random_bpm_key_style_range lcg lcg_lawful (seed lcg 2024)).
Defined.

(** X11. For a bpm the generation request accepts (40 to 200) the tone is
    110 + 1.5 (bpm - 40) Hz, never the 220 Hz kept for a bpm of zero: it
    lies between 110 and 350 Hz and rises strictly with the bpm. *)
Theorem music_freq_accepted (bpm : Z) (H : bpm_accepted bpm = true) :
  (music_freq bpm == 110 + inject_Z (bpm - 40) * (3 # 2))%Q /\
  (110 <= music_freq bpm <= 350)%Q /\
  forall bpm', bpm_accepted bpm' = true -> bpm < bpm' ->
    (music_freq bpm < music_freq bpm')%Q.
Proof.
  assert (Hacc : forall b, bpm_accepted b = true -> 40 <= b <= 200).
  { intros b Hb. unfold bpm_accepted in Hb.
    apply andb_true_iff in Hb as [H1 H2]. lia. }
  assert (Hf : forall b, 40 <= b <= 200 ->
            music_freq b = (110 + inject_Z (b - 40) * (3 # 2))%Q).
  { intros b Hb. unfold music_freq.
    destruct (Z.eqb_spec b 0); [lia | reflexivity]. }
  pose proof (Hacc bpm H) as Hr. rewrite (Hf bpm Hr).
  split; [reflexivity |]. split; [split |].
  - unfold Qle, Qplus, Qmult, inject_Z. cbn [Qnum Qden Pos.mul]. lia.
  - unfold Qle, Qplus, Qmult, inject_Z. cbn [Qnum Qden Pos.mul]. lia.
  - intros bpm' H' Hlt. rewrite (Hf bpm' (Hacc bpm' H')).
    unfold Qlt, Qplus, Qmult, inject_Z. cbn [Qnum Qden Pos.mul]. lia.
Qed.

Lemma music_freq_accepted_witness :
  bpm_accepted 90 = true /\
  (music_freq 90 == 110 + inject_Z (90 - 40) * (3 # 2))%Q /\
  (110 <= music_freq 90 <= 350)%Q /\
  forall bpm', bpm_accepted bpm' = true -> 90 < bpm' ->
    (music_freq 90 < music_freq bpm')%Q.
Proof.
  split; [reflexivity |].
  exact (music_freq_accepted 90 eq_refl).
Defined.

(** * Paths *)

Lemma take_drop (n : nat) (s : string) : take n s ++ drop n s = s.
Proof.
  revert s. induction n as [| n IH]; intros [| c s]; simpl;
    try reflexivity.
  now rewrite IH.
Qed.

Lemma rfind_ge (s : string) (c : ascii) : -1 <= rfind s c.
Proof.
  induction s as [| x s IH]; simpl; [lia |].
  destruct (Z.leb_spec 0 (rfind s c)); [lia |].
  destruct (Ascii.eqb x c); lia.
Qed.

Lemma rfind_lt_length (s : string) (c : ascii) :
  rfind s c < Z.of_nat (String.length s).
Proof.
  induction s as [| x s IH]; simpl String.length; simpl rfind; [lia |].
  destruct (Z.leb_spec 0 (rfind s c)); [lia |].
  destruct (Ascii.eqb x c); lia.
Qed.

(** Beyond the index that [rfind] returns the character does not occur. *)
Lemma rfind_lt_lacks (s : string) (c : ascii) :
  forall n : nat, rfind s c < Z.of_nat n -> lacks c (drop n s) = true.
Proof.
  induction s as [| x s IH]; intros n Hn.
  - now destruct n.
  - simpl rfind in Hn. pose proof (rfind_ge s c) as Hge.
    destruct n as [| n].
    + destruct (Z.leb_spec 0 (rfind s c)) as [Hr | Hr]; [lia |].
      destruct (Ascii.eqb x c) eqn:Hx; [lia |].
      simpl. rewrite Hx. simpl. apply (IH 0%nat). lia.
    + simpl drop. apply IH.
      destruct (Z.leb_spec 0 (rfind s c)) as [Hr | Hr]; [lia |].
      destruct (Ascii.eqb x c); lia.
Qed.

(** At the index that [rfind] returns the character occurs, for the last
    time. *)
Lemma rfind_drop (s : string) (c : ascii) :
  0 <= rfind s c ->
  exists tl, drop (Z.to_nat (rfind s c)) s = String c tl /\
             lacks c tl = true.
Proof.
  induction s as [| x s IH]; simpl rfind; [lia |].
  destruct (Z.leb_spec 0 (rfind s c)) as [Hr | Hr]; intros H0.
  - destruct (IH Hr) as (tl & Htl & Hl). exists tl. split; [| exact Hl].
    replace (Z.to_nat (rfind s c + 1)) with (S (Z.to_nat (rfind s c)))
      by lia.
    exact Htl.
  - destruct (Ascii.eqb_spec x c) as [-> | Hx]; [| lia].
    exists s. split; [reflexivity |].
    apply (rfind_lt_lacks s c 0%nat). lia.
Qed.

Lemma bound_in_range (s : string) (i : Z) :
  0 <= i < Z.of_nat (String.length s) -> bound s i = Z.to_nat i.
Proof.
  intros Hi. unfold bound.
  destruct (Z.ltb_spec i 0); [lia |]. f_equal. lia.
Qed.

Lemma slice_to_0 (s : string) : slice_to s 0 = "".
Proof.
  unfold slice_to, bound. simpl.
  replace (Z.to_nat (Z.min 0 (Z.of_nat (String.length s)))) with 0%nat
    by lia.
  now destruct s.
Qed.

Lemma skip_dots_some (p : string) (d : Z) (n : nat) :
  forall (i : Z) (r : string * string),
  skip_dots p d n i = Some r -> r = (slice_to p d, slice_from p d).
Proof.
  induction n as [| n IH]; intros i r; simpl; [discriminate |].
  destruct (negb (String.eqb (slice p i (i + 1)) ".")).
  - now intros [= <-].
  - apply IH.
Qed.

(** The two shapes of the result of [splitext]. *)
Lemma splitext_cases (p : string) :
  splitext p = (p, "") \/
  (rfind p "/" < rfind p "." /\
   splitext p = (slice_to p (rfind p "."), slice_from p (rfind p "."))).
Proof.
  unfold splitext. cbv zeta. rewrite slice_to_0.
  destruct (Z.ltb_spec (rfind p "/") (rfind p ".")) as [Hlt | Hge];
    [| now left].
  destruct (skip_dots p (rfind p ".")
              (Z.to_nat (rfind p "." - (rfind p "/" + 1)))
              (rfind p "/" + 1)) as [r |] eqn:E; [| now left].
  right. split; [exact Hlt |]. now apply skip_dots_some in E.
Qed.

(** [splitext] only cuts: the root followed by the extension is the path
    it was given. *)
Lemma splitext_concat (p : string) :
  fst (splitext p) ++ snd (splitext p) = p.
Proof.
  destruct (splitext_cases p) as [-> | [_ ->]]; cbn [fst snd].
  - apply append_empty_r.
  - apply take_drop.
Qed.

(** The extension is empty, or a dot followed by characters among which
    there is neither a dot nor a slash. *)
Lemma splitext_ext_shape (p : string) :
  snd (splitext p) = "" \/
  exists e, snd (splitext p) = String "." e /\
            lacks "." e = true /\ lacks "/" e = true.
Proof.
  destruct (splitext_cases p) as [-> | [Hlt ->]]; [now left | right].
  cbn [snd]. pose proof (rfind_ge p "/") as Hsep.
  pose proof (rfind_lt_length p ".") as Hlen.
  assert (Hdot : 0 <= rfind p ".") by lia.
  unfold slice_from. rewrite (bound_in_range p _ (conj Hdot Hlen)).
  destruct (rfind_drop p "." Hdot) as (tl & Htl & Hl).
  exists tl. split; [exact Htl |]. split; [exact Hl |].
  assert (Hs : lacks "/" (drop (Z.to_nat (rfind p ".")) p) = true)
    by (apply rfind_lt_lacks; lia).
  rewrite Htl in Hs. simpl in Hs. exact Hs.
Qed.

Lemma lacks_rfind (s : string) (c : ascii) :
  lacks c s = true -> rfind s c = -1.
Proof.
  induction s as [| x s IH]; simpl; [reflexivity |].
  intros H. apply andb_true_iff in H as [Hx Hs].
  rewrite (IH Hs). apply negb_true_iff in Hx. now rewrite Hx.
Qed.

Lemma splitext_no_dot (p : string) :
  lacks "." p = true -> splitext p = (p, "").
Proof.
  intros H. unfold splitext. cbv zeta.
  rewrite (lacks_rfind p "." H), slice_to_0.
  pose proof (rfind_ge p "/").
  destruct (Z.ltb_spec (rfind p "/") (-1)); [lia | reflexivity].
Qed.

Lemma lacks_app (c : ascii) (a b : string) :
  lacks c (a ++ b) = lacks c a && lacks c b.
Proof.
  induction a as [| x a IH]; simpl; [reflexivity |].
  now rewrite IH, andb_assoc.
Qed.

Lemma or_else_empty (f : string) : or_else f "" = f.
Proof. unfold or_else. now destruct (String.eqb_spec f ""). Qed.


Lemma join_relative (dir b : string) :
  dir <> "" -> endswith dir "/" = false -> startswith b "/" = false ->
  os_path_join dir [b] = dir ++ "/" ++ b.
Proof.
  intros Hd He Hb. unfold os_path_join, join_step. cbn [fold_left].
  rewrite Hb, He. now destruct (String.eqb_spec dir "").
Qed.

Lemma join_upload (b : string) :
  startswith b "/" = false ->
  os_path_join UPLOAD_DIR [b] = UPLOAD_DIR ++ "/" ++ b.
Proof. apply join_relative; [discriminate | reflexivity]. Qed.


Lemma join_midi (b : string) :
  startswith b "/" = false ->
  os_path_join MIDI_DIR [b] = MIDI_DIR ++ "/" ++ b.
Proof. apply join_relative; [discriminate | reflexivity]. Qed.

(** * Uploads *)

Lemma upload_dest_shape (prefix default : string)
  (filename : option string) (uid : string) :
  prefix <> "" -> lacks "/" prefix = true ->
  lacks "/" default = true -> lacks "/" uid = true ->
  exists ext,
    upload_dest prefix default filename uid
    = UPLOAD_DIR ++ "/" ++ prefix ++ uid ++ ext /\
    lacks "/" (prefix ++ uid ++ ext) = true /\
    (ext = default \/
     exists f, filename = Some f /\ fst (splitext f) ++ ext = f /\
               startswith ext "." = true).
Proof.
  intros Hp0 Hp Hd Hu. unfold upload_dest. cbv zeta.
  set (name := match filename with
               | Some f => or_else f ""
               | None => ""
               end).
  set (ext := or_else (snd (splitext name)) default).
  assert (Hext : (ext = default \/
                  exists f, filename = Some f /\
                            fst (splitext f) ++ ext = f /\
                            startswith ext "." = true) /\
                 lacks "/" ext = true).
  { subst ext. destruct (splitext_ext_shape name) as [E | (e & E & _ & Hs)];
      rewrite E.
    - split; [now left | exact Hd].
    - split; [| exact Hs]. right. unfold or_else. cbn [String.eqb].
      subst name. destruct filename as [f |]; [| discriminate E].
      rewrite or_else_empty in E. exists f. split; [reflexivity |].
      split; [| now destruct e]. rewrite <- E. apply splitext_concat. }
  destruct Hext as [Hor Hl]. exists ext.
  assert (Hb : lacks "/" (prefix ++ uid ++ ext) = true)
    by (rewrite !lacks_app, Hp, Hu, Hl; reflexivity).
  split; [| split; [exact Hb | exact Hor]].
  apply join_upload. destruct prefix as [| c pr]; [contradiction |].
  simpl in Hp. apply andb_true_iff in Hp as [Hc _].
  unfold startswith. cbn [append String.prefix].
  destruct (ascii_dec "/" c) as [<- |]; [discriminate Hc | reflexivity].
Qed.

(** X12. An upload never leaves the upload directory: when the identifier
    holds no slash, the reference is stored at UPLOAD_DIR/ref_<uid><ext>
    and the voice at UPLOAD_DIR/voice_<uid><ext>, a name without a slash
    whatever file name the client sent; <ext> is the default (".mp3",
    ".wav") or the end of the client's file name from its last dot. *)
Theorem upload_dest_in_upload_dir (filename : option string) (uid : string)
  (Hu : lacks "/" uid = true) :
  (exists ext,
     upload_reference_dest filename uid
     = UPLOAD_DIR ++ "/" ++ "ref_" ++ uid ++ ext /\
     lacks "/" ("ref_" ++ uid ++ ext) = true /\
     (ext = ".mp3" \/
      exists f, filename = Some f /\ fst (splitext f) ++ ext = f /\
                startswith ext "." = true)) /\
  (exists ext,
     upload_voice_dest filename uid
     = UPLOAD_DIR ++ "/" ++ "voice_" ++ uid ++ ext /\
     lacks "/" ("voice_" ++ uid ++ ext) = true /\
     (ext = ".wav" \/
      exists f, filename = Some f /\ fst (splitext f) ++ ext = f /\
                startswith ext "." = true)).
Proof.
  split.
  - apply (upload_dest_shape "ref_" ".mp3" filename uid);
      (discriminate || reflexivity || assumption).
  - apply (upload_dest_shape "voice_" ".wav" filename uid);
      (discriminate || reflexivity || assumption).
Qed.

Lemma upload_dest_in_upload_dir_witness :
  lacks "/" "3f2a" = true /\
  (exists ext,
     upload_reference_dest (Some "../../etc/cron.d/x.sh") "3f2a"
     = UPLOAD_DIR ++ "/" ++ "ref_" ++ "3f2a" ++ ext /\
     lacks "/" ("ref_" ++ "3f2a" ++ ext) = true /\
     (ext = ".mp3" \/
      exists f, Some "../../etc/cron.d/x.sh" = Some f /\
                fst (splitext f) ++ ext = f /\
                startswith ext "." = true)) /\
  (exists ext,
     upload_voice_dest (Some "../../etc/cron.d/x.sh") "3f2a"
     = UPLOAD_DIR ++ "/" ++ "voice_" ++ "3f2a" ++ ext /\
     lacks "/" ("voice_" ++ "3f2a" ++ ext) = true /\
     (ext = ".wav" \/
      exists f, Some "../../etc/cron.d/x.sh" = Some f /\
                fst (splitext f) ++ ext = f /\
                startswith ext "." = true)).
Proof.
  split; [reflexivity |].
  exact (upload_dest_in_upload_dir (Some "../../etc/cron.d/x.sh") "3f2a"
           eq_refl).
Defined.

(** X13. Without a usable extension the default is stored: a missing or
    empty file name, and a file name without a dot, give ".mp3" for a
    reference and ".wav" for a voice. *)
Theorem upload_dest_default (filename : option string) (uid : string)
  (Hu : lacks "/" uid = true)
  (Hf : filename = None \/
        exists f, filename = Some f /\ lacks "." f = true) :
  upload_reference_dest filename uid
  = UPLOAD_DIR ++ "/" ++ "ref_" ++ uid ++ ".mp3" /\
  upload_voice_dest filename uid
  = UPLOAD_DIR ++ "/" ++ "voice_" ++ uid ++ ".wav".
Proof.
  assert (Hn : snd (splitext match filename with
                             | Some f => or_else f ""
                             | None => ""
                             end) = "").
  { destruct Hf as [-> | (f & -> & Hl)]; [reflexivity |].
    now rewrite or_else_empty, (splitext_no_dot f Hl). }
  unfold upload_reference_dest, upload_voice_dest, upload_dest. cbv zeta.
  rewrite Hn. unfold or_else at 1 2. cbn [String.eqb].
  split; apply join_upload; reflexivity.
Qed.

Lemma upload_dest_default_witness :
  lacks "/" "3f2a" = true /\
  (Some "README" = None \/
   exists f, Some "README" = Some f /\ lacks "." f = true) /\
  upload_reference_dest (Some "README") "3f2a"
  = UPLOAD_DIR ++ "/" ++ "ref_" ++ "3f2a" ++ ".mp3" /\
  upload_voice_dest (Some "README") "3f2a"
  = UPLOAD_DIR ++ "/" ++ "voice_" ++ "3f2a" ++ ".wav".
Proof.
  assert (Hf : Some "README" = None \/
               exists f, Some "README" = Some f /\ lacks "." f = true)
    by (right; exists "README"; split; reflexivity).
  split; [reflexivity |]. split; [exact Hf |].
  exact (upload_dest_default (Some "README") "3f2a" eq_refl Hf).
Defined.

(** * Exports *)

Lemma path_exists_write (fs : FS) (p q : string) (f : File) :
  path_exists fs q = true -> path_exists (write_file fs p f) q = true.
Proof.
  unfold path_exists, write_file. now destruct (String.eqb q p).
Qed.

Section Stems.

Variable music_id : string.

(** The file of a stem, as [export_stems] names it. *)
Let stem_path (name : string) : string :=
  os_path_join AUDIO_DIR [music_id ++ "_" ++ name ++ ".wav"].

(** What one turn of the loop does to the files. *)
Lemma stem_step_files (urls : list (string * string)) (fs : FS)
  (name : string) (f : Q) :
  let fs1 := snd (stem_step music_id (urls, fs) (name, f)) in
  path_exists fs1 (stem_path name) = true /\
  forall q,
    (path_exists fs q = true -> fs1 q = fs q) /\
    (fs1 q = fs q \/
     (fs q = None /\ q = stem_path name /\
      fs1 q = Some (Tone 6 f (1 # 4) 44100))).
Proof.
  cbv zeta. unfold stem_step. cbn [snd]. fold (stem_path name).
  destruct (path_exists fs (stem_path name)) eqn:E; cbn [negb].
  - split; [exact E |]. intros q. split; [reflexivity | now left].
  - unfold _sine_wave_to_wav, write_file, path_exists in *. split.
    + now rewrite String.eqb_refl.
    + intros q. destruct (String.eqb_spec q (stem_path name)) as [-> | Hq].
      * split; [now rewrite E |]. right.
        destruct (fs (stem_path name)); [discriminate E | auto].
      * split; [reflexivity | now left].
Qed.

Lemma stems_loop_files (l : list (string * Q)) :
  forall (urls : list (string * string)) (fs : FS),
  let fs' := snd (fold_left (stem_step music_id) l (urls, fs)) in
  (forall name f, In (name, f) l ->
     path_exists fs' (stem_path name) = true) /\
  forall q,
    (path_exists fs q = true -> fs' q = fs q) /\
    (fs' q = fs q \/
     exists name f,
       In (name, f) l /\ fs q = None /\ q = stem_path name /\
       fs' q = Some (Tone 6 f (1 # 4) 44100)).
Proof.
  induction l as [| [name f] l IH]; intros urls fs; cbv zeta.
  - cbn. split; [contradiction |]. intros q. split; [reflexivity | now left].
  - cbn [fold_left].
    destruct (stem_step music_id (urls, fs) (name, f)) as [urls1 fs1] eqn:E.
    pose proof (stem_step_files urls fs name f) as [Hnew Hstep].
    rewrite E in Hnew, Hstep. cbn [snd] in Hnew, Hstep.
    destruct (IH urls1 fs1) as [Hall Hq]. cbv zeta in Hall, Hq. split.
    + intros n g [[= <- <-] | Hin]; [| now apply (Hall n g)].
      destruct (Hq (stem_path name)) as [Hkeep _].
      unfold path_exists in *. now rewrite (Hkeep Hnew).
    + intros q. destruct (Hq q) as [Hkeep Hor].
      destruct (Hstep q) as [Hkeep1 Hor1]. split.
      * intros Hex. rewrite Hkeep; [now apply Hkeep1 |].
        unfold path_exists in *. now rewrite (Hkeep1 Hex).
      * destruct Hor as [Heq | (n & g & Hin & Hnone & Hp & Hsome)].
        -- rewrite Heq.
           destruct Hor1 as [Heq1 | (Hnone & Hp & Hsome)]; [now left |].
           right. exists name, f. repeat split; try assumption. now left.
        -- destruct Hor1 as [Heq1 | (Hnone1 & Hp1 & Hsome1)].
           ++ right. exists n, g. rewrite <- Heq1.
              repeat split; try assumption. now right.
           ++ rewrite Hsome1 in Hnone. discriminate Hnone.
Qed.



Lemma export_stems_fold (fs : FS) :
  export_stems music_id fs
  = ({| stems_id := music_id;
        stems_urls := fst (fold_left (stem_step music_id) stems ([], fs)) |},
     snd (fold_left (stem_step music_id) stems ([], fs))).
Proof.
  unfold export_stems.
  now destruct (fold_left (stem_step music_id) stems ([], fs)).
Qed.

End Stems.

Lemma append_inj_l (a x y : string) : a ++ x = a ++ y -> x = y.
Proof.
  induction a as [| c a IH]; simpl; [trivial |].
  intros [= H]. now apply IH.
Qed.

Lemma startswith_same_head (a x y : string) :
  startswith x "/" = false -> startswith y "/" = false ->
  startswith (a ++ x) "/" = startswith (a ++ y) "/".
Proof.
  intros Hx Hy. destruct a as [| c a]; simpl append.
  - now rewrite Hx, Hy.
  - unfold startswith. cbn [String.prefix].
    destruct (ascii_dec "/" c); [| reflexivity].
    now destruct (a ++ x), (a ++ y).
Qed.

(** Two components with a common head are joined to different paths when
    their tails differ. *)
Lemma join_inj_tail (dir a x y : string) :
  startswith x "/" = false -> startswith y "/" = false ->
  os_path_join dir [a ++ x] = os_path_join dir [a ++ y] -> x = y.
Proof.
  intros Hx Hy. unfold os_path_join, join_step. cbn [fold_left].
  rewrite (startswith_same_head a x y Hx Hy).
  destruct (startswith (a ++ y) "/").
  - apply append_inj_l.
  - destruct (String.eqb dir "" || endswith dir "/"); intros H.
    + now apply append_inj_l in H; apply append_inj_l in H.
    + apply append_inj_l in H. injection H as H.
      now apply append_inj_l in H.
Qed.






(** X18. Exporting the stems of a track does not make the track itself
    appear or disappear: [master_track] and [export_audio] answer for the
    same identifier after [export_stems] as they did before. *)
Theorem export_stems_keeps_track (music_id preset ext : string) (fs : FS) :
  master_track music_id preset (snd (export_stems music_id fs))
  = master_track music_id preset fs /\
  export_audio music_id ext (snd (export_stems music_id fs))
  = export_audio music_id ext fs.
Proof.
  assert (Hsame : snd (export_stems music_id fs)
                    (os_path_join AUDIO_DIR [music_id ++ ".wav"])
                  = fs (os_path_join AUDIO_DIR [music_id ++ ".wav"])).
  { rewrite export_stems_fold. cbn [snd].
    destruct (stems_loop_files music_id stems [] fs) as [_ Hq].
    destruct (Hq (os_path_join AUDIO_DIR [music_id ++ ".wav"]))
      as [_ [Heq | (name & f & _ & _ & Hp & _)]]; [exact Heq |].
    apply join_inj_tail in Hp; [discriminate Hp | reflexivity..]. }
  unfold master_track, export_audio, path_exists. cbv zeta.
  now rewrite Hsame.
Qed.

